(** * sass-import-modules: the import resolution pipeline of [index.js]

    A shallow embedding of [index.js].  The file is callback driven: every
    resolver receives a continuation [next] and hands its answer to it once
    the collaborator it asked ([fs.stat] or the [resolve] package) has
    called back.  The embedding keeps that shape.  A JavaScript function
    that returns nothing and calls a continuation becomes a Rocq function
    that takes the continuation and returns a [proc], the tree of
    collaborator requests the call performs; [events] runs such a tree against
    a fixed answer table for the collaborators and yields the sequence of
    observable events. *)

From Stdlib Require Import ZArith Ascii Bool Lia.
From Stdlib Require String.
From stdpp Require Import base option list strings.

(** ** JavaScript primitives used by the file *)

(** [ToInt32]: the conversion every bitwise operator applies to its operand. *)
Definition to_int32 (z : Z) : Z :=
  ((z + 2 ^ 31) mod 2 ^ 32 - 2 ^ 31)%Z.

(** [~x] on a number. *)
Definition bit_not (z : Z) : Z := Z.lnot (to_int32 z).

(** [!x] on a number: only zero is falsy among the integers. *)
Definition not_num (z : Z) : bool := (z =? 0)%Z.

(** [String.prototype.indexOf]: the position of the first occurrence of
    [ext] in [file], scanning from the left, or [-1]. *)
Fixpoint indexOf_from (file ext : string) (k : Z) : Z :=
  if String.prefix ext file then k
  else match file with
       | EmptyString => (-1)%Z
       | String _ rest => indexOf_from rest ext (k + 1)%Z
       end.

Definition indexOf (file ext : string) : Z := indexOf_from file ext 0.

(** [String.prototype.charAt]: a string of one character, or the empty
    string when the position is past the end. *)
Definition charAt (s : string) (i : nat) : string :=
  match String.get i s with
  | Some c => String c EmptyString
  | None => EmptyString
  end.

(** Truthiness of a value that is a string, [null] or [undefined]: the
    empty string is falsy like the two absent values. *)
Definition truthy_str (v : option string) : bool :=
  match v with
  | Some s => negb (String.eqb s "")
  | None => false
  end.

(** Truthiness of a value that is an object, [null] or [undefined]. *)
Definition truthy_obj {A : Type} (v : option A) : bool :=
  match v with
  | Some _ => true
  | None => false
  end.

(** [a || b] on such values. *)
Definition js_or {A : Type} (a b : option A) : option A :=
  if truthy_obj a then a else b.

(** ** [extension] *)

Definition extension (file ext : string) : string :=
  if not_num (bit_not (indexOf file ext)) then file +:+ ext else file.

(** The length of a JavaScript string that [indexOf] can report every
    position of without [ToInt32] folding one of them onto [-1]. *)
Definition index_fits_int32 (s : string) : Prop :=
  (Z.of_nat (String.length s) < 2 ^ 32 - 1)%Z.

(** [ext] occurs somewhere in [file]. *)
Definition occurs_in (ext file : string) : Prop :=
  exists before after : string, file = before +:+ ext +:+ after.

(** [ext] begins with a dot. *)
Definition starts_with_dot (ext : string) : Prop :=
  exists rest : string, ext = String "." rest.

(** ** Collaborators, callbacks and the shape of a call *)

(** An [Error] object handed to a Node-style callback. *)
Record js_error := JsError { message : string }.

(** The [fs.Stats] object a successful [fs.stat] hands over. *)
Record fs_stats := FsStats { isFile : bool }.

(** What leaves a call through [throw]: the [Error] built on line 150, or
    the [TypeError] the engine raises when a non-function is called. *)
Inductive thrown :=
| ThrownError (msg : string)
| ThrownTypeError.

(** The argument list of the host's completion callback [done]. *)
Inductive done_args :=
| NoArgs
| FileObject (file : string).

(** The argument of a [debug] line. *)
Inductive log_arg :=
| LogStr (s : string)
| LogNum (n : nat).

(** A call in continuation passing style.  [Return] is the point where the
    JavaScript function body is left; the other nodes are the effects the
    file performs, each holding what runs once the effect is over. *)
Inductive proc (R : Type) : Type :=
| Return (r : R)
| Log (fmt : string) (arg : log_arg) (k : proc R)
| FsStat (file : string) (cb : option js_error -> option fs_stats -> proc R)
| ModResolve (request basedir : string)
             (cb : option js_error -> option string -> proc R)
| Done (args : done_args) (k : proc R)
| Throw (e : thrown).

Arguments Return {R} r.
Arguments Log {R} fmt arg k.
Arguments FsStat {R} file cb.
Arguments ModResolve {R} request basedir cb.
Arguments Done {R} args k.
Arguments Throw {R} e.

(** The Node-style callback [next(err, file)]. *)
Definition callback (R : Type) : Type :=
  option js_error -> option string -> proc R.

(** A resolver once bound to its base directory: [(file, ext, next)]. *)
Definition resolver (R : Type) : Type :=
  string -> string -> callback R -> proc R.

(** A fixed state of the collaborators: what [fs.stat] and the [resolve]
    package answer to each request.  Either hands its callback an error, a
    value, or neither. *)
Record world := World {
  stat_answer : string -> option js_error * option fs_stats;
  resolve_answer : string -> string -> option js_error * option string
}.

Inductive event :=
| EvLog (fmt : string) (arg : log_arg)
| EvStat (file : string)
| EvResolve (request basedir : string)
| EvDone (args : done_args)
| EvThrow (e : thrown).

(** The events of a call, in the order they happen. *)
Fixpoint events {R : Type} (w : world) (p : proc R) : list event :=
  match p with
  | Return _ => []
  | Log fmt arg k => EvLog fmt arg :: events w k
  | FsStat file cb =>
      EvStat file ::
      events w (cb (stat_answer w file).1 (stat_answer w file).2)
  | ModResolve request basedir cb =>
      EvResolve request basedir ::
      events w (cb (resolve_answer w request basedir).1
                   (resolve_answer w request basedir).2)
  | Done args k => EvDone args :: events w k
  | Throw e => [EvThrow e]
  end.

(** The value a call is left with, if it is not left by [throw]. *)
Fixpoint returned {R : Type} (w : world) (p : proc R) : option R :=
  match p with
  | Return r => Some r
  | Log _ _ k => returned w k
  | FsStat file cb =>
      returned w (cb (stat_answer w file).1 (stat_answer w file).2)
  | ModResolve request basedir cb =>
      returned w (cb (resolve_answer w request basedir).1
                     (resolve_answer w request basedir).2)
  | Done _ k => returned w k
  | Throw _ => None
  end.

(** The [path] module of Node, as far as the file uses it. *)
Class PathModule := {
  path_join : string -> string -> string;
  path_dirname : string -> string
}.

(** [path.dirname] never answers the empty string: a name without a
    directory part has directory ['.']. *)
Class PathLaws (P : PathModule) : Prop := {
  dirname_not_empty : forall p : string, path_dirname p <> ""
}.

(** The string behind a truthy [file], for the branches guarded by
    [if (file)]. *)
Definition truthy_file (v : option string) : option string :=
  if truthy_str v then v else None.

(** ** The functions of [index.js] *)

Section Resolvers.
Context {P : PathModule}.
Context {R : Type}.

Definition node (base file ext : string) (next : callback R) : proc R :=
  Log "Resolving file from node_modules: %s" (LogStr file)
    (ModResolve (extension file ext) base (fun error result =>
       if truthy_str result then next None result
       else ModResolve file base next)).

Definition exists_ (file : string) (done : bool -> proc R) : proc R :=
  FsStat file (fun error stat =>
    done (negb (truthy_obj error) && negb (negb (truthy_obj stat)))).

Definition local (base file ext : string) (next : callback R) : proc R :=
  Log "Resolving file locally: %s" (LogStr file)
    (let file := extension (path_join base file) ext in
     exists_ file (fun exist =>
       next None (if exist then Some file else None))).

End Resolvers.

(** The host's completion callback, as the importer receives it. *)
Definition done_callback : Type := done_args -> proc unit.

(** What node-sass passes for [done]: the call is observed, and control
    comes back to the caller. *)
Definition host_done : done_callback :=
  fun args => Done args (Return tt).

Definition provide (file : string) (done : done_callback) : proc unit :=
  done (FileObject file).

(** An argument of [Array.prototype.concat]: an array is spliced in, any
    other value is appended as one element.  The values at hand are
    strings and [undefined]. *)
Inductive concat_arg :=
| Value (v : option string)
| Array (l : list (option string)).

Definition concat (args : list concat_arg) : list (option string) :=
  args ≫= (fun a => match a with Value v => [v] | Array l => l end).

(** [.filter(Boolean)]: the truthy elements, in their order. *)
Definition filter_Boolean (l : list (option string)) : list string :=
  omap truthy_file l.

(** [this.options] of the call: node-sass's options object, of which the
    file reads [includePaths]. *)
Record host_options := HostOptions { includePaths : concat_arg }.

(** [(this.options || {}).includePaths] *)
Definition options_includePaths (this_options : option host_options)
  : concat_arg :=
  match this_options with
  | Some o => includePaths o
  | None => Value None
  end.

Section Importer.
Context {P : PathModule}.

Definition includes_of (root : string)
    (this_options : option host_options) (prev : string) : list string :=
  let dirnamePrev := path_dirname prev in
  filter_Boolean
    (concat [options_includePaths this_options;
             Value (Some dirnamePrev); Value (Some root)]).

Definition fns_of (includes : list string) : list (resolver unit) :=
  fold_left (fun arr fn => arr ++ map (fun base => fn base) includes)
            [local; node] [].

(** The immediately invoked [run(stack, error)] with its inner [next].
    [stack.shift()] takes the head; the tail is the array every later
    step sees. *)
Fixpoint run (url ext prev : string) (done : done_callback)
    (stack : list (resolver unit)) (error : option js_error)
    {struct stack} : proc unit :=
  match stack with
  | [] => Throw ThrownTypeError
  | fn :: stack =>
      fn url ext (fun err file =>
        let error := js_or error err in
        match truthy_file file with
        | Some file => provide file done
        | None =>
            if Nat.eqb (length stack) 0 then
              if truthy_obj error then
                Throw (ThrownError ("Could not find file: " +:+ url +:+
                                    " from parent " +:+ prev))
              else done NoArgs
            else
              Log "Stack step complete, iterating over remaining %d"
                  (LogNum (length stack))
                  (run url ext prev done stack err)
        end)
  end.

Definition resolve (root ext : string)
    (this_options : option host_options) (url prev : string)
    (done : done_callback) : proc unit :=
  let includes := includes_of root this_options prev in
  let fns := fns_of includes in
  Log "Resolving: %s" (LogStr url)
    (run url ext prev done fns None).

(** The options object of [importer]; an absent key is [None]. *)
Record importer_options := ImporterOptions {
  opt_root : option string;
  opt_ext : option string
}.

(** The leading-dot rule of lines 101-103. *)
Definition dotted (ext : string) : string :=
  if negb (String.eqb (charAt ext 0) ".") then "." +:+ ext else ext.

(** [importer]; [cwd] is what [process.cwd()] answers when the factory
    is called. *)
Definition importer (cwd : string) (options : option importer_options)
  : option host_options -> string -> string -> done_callback -> proc unit :=
  let o := default (ImporterOptions None None) options in
  let root := default cwd (opt_root o) in
  let ext := default ".scss" (opt_ext o) in
  let ext := dotted ext in
  resolve root ext.

End Importer.

(** ** Vocabulary of the specification

    The specification speaks of attempts, of what an attempt produces and
    of the calls a resolution makes.  These are read off the code above by
    running one bound resolver with a callback that only hands back what
    it was given. *)

Inductive strategy :=
| LocalStrategy
| PackageStrategy.

(** A resolver attempt: one strategy bound to one base directory. *)
Definition attempt : Type := strategy * string.

(** The ordered attempt list in the words of the specification. *)
Definition attempts (includes : list string) : list attempt :=
  map (pair LocalStrategy) includes ++ map (pair PackageStrategy) includes.

(** The callback that records its arguments and does nothing else. *)
Definition probe : callback (option js_error * option string) :=
  fun err file => Return (err, file).

(** The collaborator calls and completions among some events: every event
    but the [debug] lines. *)
Definition is_call (e : event) : bool :=
  match e with
  | EvLog _ _ => false
  | _ => true
  end.

Definition calls (evs : list event) : list event :=
  List.filter is_call evs.

(** The events that end a resolution call: [done] was called, or an
    exception left the call. *)
Definition is_completion (e : event) : bool :=
  match e with
  | EvDone _ | EvThrow _ => true
  | _ => false
  end.

Definition completions (evs : list event) : list event :=
  List.filter is_completion evs.

(** The three ways a resolution call may end according to the
    specification. *)
Inductive specified_completion : event -> Prop :=
| CompletedWithFile (file : string) :
    specified_completion (EvDone (FileObject file))
| CompletedWithNoResult :
    specified_completion (EvDone NoArgs)
| CompletedWithFatalError (msg : string) :
    specified_completion (EvThrow (ThrownError msg)).

Section Attempts.
Context {P : PathModule}.

(** The function [fn.bind(fn, base)] of an attempt. *)
Definition bound {R : Type} (a : attempt) : resolver R :=
  match a.1 with
  | LocalStrategy => local a.2
  | PackageStrategy => node a.2
  end.

Section InWorld.
Variable w : world.
Variables url ext : string.

(** What the attempt hands to its callback. *)
Definition answer (a : attempt)
  : option (option js_error * option string) :=
  returned w (bound a url ext probe).

(** The resolved file the attempt produces, if it produces one. *)
Definition found (a : attempt) : option string :=
  answer a ≫= (fun r => truthy_file r.2).

(** The error the attempt carries, if it carries one. *)
Definition carried (a : attempt) : option js_error :=
  answer a ≫= (fun r => r.1).

(** The collaborator calls the attempt makes on its own. *)
Definition attempt_calls (a : attempt) : list event :=
  calls (events w (bound a url ext probe)).

(** The error [next] holds when the stack has run dry, for a stack
    that started with [error] remembered: each step hands only its
    own [err] on to the following one. *)
Fixpoint final_error (error : option js_error) (atts : list attempt)
  : option js_error :=
  match atts with
  | [] => error
  | a :: rest =>
      match rest with
      | [] => js_or error (carried a)
      | _ => final_error (carried a) rest
      end
  end.

End InWorld.
End Attempts.

(** An entry that is neither absent nor the empty string. *)
Definition is_present (v : option string) : Prop :=
  v <> None /\ v <> Some "".

#[global] Instance is_present_dec (v : option string) :
  Decision (is_present v).
Proof. unfold is_present. apply _. Defined.

(** The include paths the host supplies, one entry per path. *)
Definition host_include_paths (this_options : option host_options)
  : list (option string) :=
  match options_includePaths this_options with
  | Value v => [v]
  | Array l => l
  end.

(** The base-directory list in the words of the specification: the
    host's include paths in their order, then the directory of the
    previous file, then the root, with the absent and empty entries
    taken out. *)
Definition base_directories (host : list (option string))
    (dir root : string) : list (option string) :=
  filter is_present (host ++ [Some dir; Some root]).

(** ** A POSIX instance of the [path] interface

    [path.posix.dirname] and [path.posix.join] of Node, written out so that
    the pipeline can be evaluated on concrete paths. *)

Module Posix.

Definition is_slash (c : ascii) : bool := Ascii.eqb c "/".

Definition has_root (path : string) : bool :=
  match path with
  | String c _ => is_slash c
  | EmptyString => false
  end.

Definition char_is_slash (path : string) (i : nat) : bool :=
  match String.get i path with
  | Some c => is_slash c
  | None => false
  end.

(** The backwards scan of [dirname] over the positions [i .. 1]: the
    position of the slash that ends the directory part, if there is one.
    [matchedSlash] stays set while only trailing slashes were seen. *)
Fixpoint dirname_end (path : string) (i : nat) (matchedSlash : bool)
  : option nat :=
  match i with
  | O => None
  | S j =>
      if char_is_slash path i then
        if matchedSlash then dirname_end path j matchedSlash else Some i
      else dirname_end path j false
  end.

Definition dirname (path : string) : string :=
  if Nat.eqb (String.length path) 0 then "."
  else
    match dirname_end path (String.length path - 1) true with
    | None => if has_root path then "/" else "."
    | Some e =>
        if has_root path && Nat.eqb e 1 then "//"
        else String.substring 0 e path
    end.

(** The pieces of a path between its slashes. *)
Fixpoint segments (path : string) : list string :=
  match path with
  | EmptyString => [""]
  | String c rest =>
      if is_slash c then "" :: segments rest
      else match segments rest with
           | seg :: more => String c seg :: more
           | [] => [String c ""]
           end
  end.

(** One step of [normalizeString]; [acc] holds the kept segments, last
    one first. *)
Definition push_segment (allowAboveRoot : bool) (acc : list string)
    (seg : string) : list string :=
  if String.eqb seg "" || String.eqb seg "." then acc
  else if String.eqb seg ".." then
    match acc with
    | last :: more =>
        if String.eqb last ".." then ".." :: acc else more
    | [] => if allowAboveRoot then [".."] else []
    end
  else seg :: acc.

Fixpoint join_with_slash (segs : list string) : string :=
  match segs with
  | [] => ""
  | [seg] => seg
  | seg :: more => seg +:+ "/" +:+ join_with_slash more
  end.

Definition ends_with_slash (path : string) : bool :=
  char_is_slash path (String.length path - 1).

Definition normalize (path : string) : string :=
  if Nat.eqb (String.length path) 0 then "."
  else
    let isAbsolute := has_root path in
    let trailingSeparator := ends_with_slash path in
    let body :=
      join_with_slash
        (rev (fold_left (push_segment (negb isAbsolute))
                        (segments path) [])) in
    if Nat.eqb (String.length body) 0 then
      if isAbsolute then "/"
      else if trailingSeparator then "./" else "."
    else
      (if isAbsolute then "/" else "") +:+ body +:+
      (if trailingSeparator then "/" else "").

Definition join (base file : string) : string :=
  let args := filter (fun s : string => s ≠ "") [base; file] in
  match args with
  | [] => "."
  | _ => normalize (join_with_slash args)
  end.

#[export] Instance path : PathModule :=
  {| path_join := join; path_dirname := dirname |}.

End Posix.

(** A small project tree and the importer configured for it, for the
    concrete runs below. *)
Module Sample.
Import Posix.

Definition absent_stat : option js_error * option fs_stats :=
  (Some (JsError "ENOENT: no such file or directory"), None).
Definition present_stat : option js_error * option fs_stats :=
  (None, Some (FsStats true)).

(** Nothing on disk, and [resolve] finds nothing and reports no error. *)
Definition empty_world : world :=
  World (fun _ => absent_stat) (fun _ _ => (None, None)).

(** [/proj/src/foo.scss] is the only file. *)
Definition local_world : world :=
  World (fun file => if String.eqb file "/proj/src/foo.scss"
                     then present_stat else absent_stat)
        (fun _ _ => (None, None)).

(** Nothing on disk; [resolve] reports an error below [/vendor] and
    plain absence elsewhere. *)
Definition vendor_error_world : world :=
  World (fun _ => absent_stat)
        (fun _ basedir =>
           if String.eqb basedir "/vendor"
           then (Some (JsError "EACCES: permission denied"), None)
           else (None, None)).

(** Nothing on disk; the package [some-lib] resolves from [/proj], under
    its bare name only, and is unknown from anywhere else. *)
Definition package_world : world :=
  World (fun _ => absent_stat)
        (fun request basedir =>
           if String.eqb basedir "/proj" && String.eqb request "some-lib"
           then (None, Some "/proj/node_modules/some-lib/index.scss")
           else (Some (JsError "Cannot find module"), None)).

End Sample.

(** ** Counting collaborator requests *)

Definition is_stat (e : event) : bool :=
  match e with
  | EvStat _ => true
  | _ => false
  end.

Definition is_resolve (e : event) : bool :=
  match e with
  | EvResolve _ _ => true
  | _ => false
  end.

(** The number of [fs.stat] requests in some events. *)
Definition stat_count (evs : list event) : nat :=
  length (List.filter is_stat evs).

(** The number of module resolution requests in some events. *)
Definition resolve_count (evs : list event) : nat :=
  length (List.filter is_resolve evs).

(** How many attempts of a list follow the given strategy. *)
Definition strategy_count (s : strategy) (atts : list attempt) : nat :=
  length (List.filter
            (fun a : attempt =>
               match a.1, s with
               | LocalStrategy, LocalStrategy => true
               | PackageStrategy, PackageStrategy => true
               | _, _ => false
               end) atts).

(** * Properties *)

(** ** Strings and [indexOf] *)

Lemma app_nil_string (b : string) : "" +:+ b = b.
Proof. reflexivity. Qed.

Lemma app_cons_string (c : ascii) (a b : string) :
  String c a +:+ b = String c (a +:+ b).
Proof. reflexivity. Qed.

Lemma prefix_true_iff (e s : string) :
  String.prefix e s = true <-> exists t : string, s = e +:+ t.
Proof.
  revert s. induction e as [|c e IH]; intros s.
  - destruct s; simpl; split; eauto.
  - destruct s as [|d s]; simpl.
    + split; [discriminate | intros [t Ht]; discriminate].
    + destruct (ascii_dec c d) as [->|Hne].
      * rewrite IH. split; intros [t Ht]; exists t.
        -- by rewrite Ht.
        -- rewrite app_cons_string in Ht. by inversion Ht.
      * split; [discriminate|].
        intros [t Ht]. rewrite app_cons_string in Ht. inversion Ht; congruence.
Qed.

Lemma app_nil_r_string (a : string) : a +:+ "" = a.
Proof.
  induction a as [|x a IH]; [done|]. by rewrite app_cons_string, IH.
Qed.

Lemma length_app_string (a b : string) :
  String.length (a +:+ b) = String.length a + String.length b.
Proof.
  induction a as [|x a IH]; [done|].
  rewrite app_cons_string. simpl. by rewrite IH.
Qed.

Lemma occurs_in_self_appended (e s : string) : occurs_in e (s +:+ e).
Proof. exists s, "". by rewrite app_nil_r_string. Qed.

Lemma indexOf_from_nil (e : string) (k : Z) :
  indexOf_from "" e k = if String.prefix e "" then k else (-1)%Z.
Proof. reflexivity. Qed.

Lemma indexOf_from_cons (c : ascii) (rest e : string) (k : Z) :
  indexOf_from (String c rest) e k =
  if String.prefix e (String c rest) then k
  else indexOf_from rest e (k + 1)%Z.
Proof. reflexivity. Qed.

(** A first occurrence is reported at or before any occurrence. *)
Lemma indexOf_from_occurrence (before e after : string) (k : Z) :
  (k <= indexOf_from (before +:+ e +:+ after) e k
     <= k + Z.of_nat (String.length before))%Z.
Proof.
  revert k. induction before as [|c before IH]; intros k.
  - rewrite app_nil_string.
    assert (Hp : String.prefix e (e +:+ after) = true)
      by (apply prefix_true_iff; eauto).
    destruct (e +:+ after) eqn:E.
    + rewrite indexOf_from_nil, Hp. simpl. lia.
    + rewrite indexOf_from_cons, Hp. simpl. lia.
  - rewrite app_cons_string, indexOf_from_cons.
    change (String.length (String c before)) with (S (String.length before)).
    destruct (String.prefix e _); [lia|].
    specialize (IH (k + 1)%Z). lia.
Qed.

(** Whatever [indexOf] reports other than [-1] is an occurrence. *)
Lemma indexOf_from_found (s e : string) (k : Z) :
  indexOf_from s e k <> (-1)%Z -> (0 <= k)%Z -> occurs_in e s.
Proof.
  revert k. induction s as [|c s IH]; intros k Hr Hk.
  - rewrite indexOf_from_nil in Hr.
    destruct (String.prefix e "") eqn:Hp; [|done].
    apply prefix_true_iff in Hp as [t Ht]. by exists "", t.
  - rewrite indexOf_from_cons in Hr.
    destruct (String.prefix e (String c s)) eqn:Hp.
    + apply prefix_true_iff in Hp as [t Ht]. by exists "", t.
    + destruct (IH (k + 1)%Z Hr ltac:(lia)) as (a & b & ->).
      by exists (String c a), b.
Qed.

Lemma indexOf_absent (s e : string) :
  ~ occurs_in e s -> indexOf s e = (-1)%Z.
Proof.
  intros Hno. destruct (Z.eq_dec (indexOf s e) (-1)%Z) as [|Hne]; [done|].
  exfalso. apply Hno. by apply (indexOf_from_found s e 0).
Qed.

Lemma indexOf_present (s e : string) :
  occurs_in e s ->
  (0 <= indexOf s e <= Z.of_nat (String.length s))%Z.
Proof.
  intros (a & b & ->). unfold indexOf.
  pose proof (indexOf_from_occurrence a e b 0) as H.
  rewrite length_app_string. lia.
Qed.

(** The test [!~i] singles out [-1] among the positions a string of
    admissible length can have. *)
Lemma not_bit_not (i : Z) :
  (-1 <= i < 2 ^ 32 - 1)%Z -> not_num (bit_not i) = (i =? -1)%Z.
Proof.
  intros Hi. unfold not_num, bit_not, to_int32, Z.lnot.
  change (2 ^ 31)%Z with 2147483648%Z. change (2 ^ 32)%Z with 4294967296%Z.
  change (2 ^ 32)%Z with 4294967296%Z in Hi.
  destruct (Z.eqb_spec i (-1)%Z) as [->|Hne]; [done|].
  apply Z.eqb_neq. Z.div_mod_to_equations. lia.
Qed.

Lemma extension_absent (s e : string) :
  ~ occurs_in e s -> extension s e = s +:+ e.
Proof.
  intros Hno. unfold extension. by rewrite (indexOf_absent _ _ Hno).
Qed.

Lemma extension_present (s e : string) :
  index_fits_int32 s -> occurs_in e s -> extension s e = s.
Proof.
  intros Hlen Hocc. unfold extension.
  pose proof (indexOf_present _ _ Hocc) as Hi.
  unfold index_fits_int32 in Hlen.
  rewrite not_bit_not by lia.
  by destruct (Z.eqb_spec (indexOf s e) (-1)%Z); [lia|].
Qed.

Lemma occurs_in_dec (e s : string) : occurs_in e s \/ ~ occurs_in e s.
Proof.
  destruct (Z.eq_dec (indexOf s e) (-1)%Z) as [Heq|Hne].
  - right. intros Hocc. apply indexOf_present in Hocc. lia.
  - left. by apply (indexOf_from_found s e 0).
Qed.

Lemma extension_at_index (s e : string) :
  (0 <= indexOf s e < 2 ^ 32 - 1)%Z -> extension s e = s.
Proof.
  intros Hi. unfold extension. rewrite not_bit_not by lia.
  by destruct (Z.eqb_spec (indexOf s e) (-1)%Z); [lia|].
Qed.

(** ** [extension] *)

(** C7: for a path-like string [s] and an extension [e], [extension]
    returns [s] unchanged when [e] occurs anywhere in [s], not only at its
    end, and returns [s] with [e] appended otherwise.  It is a total
    function of its two arguments.  The string is one whose positions
    [ToInt32] leaves apart from [-1], as every string of the engine is. *)
Theorem extension_unchanged_or_appended (s e : string) :
  index_fits_int32 s ->
  (occurs_in e s -> extension s e = s) /\
  (~ occurs_in e s -> extension s e = s +:+ e).
Proof.
  intros Hlen. split.
  - by apply extension_present.
  - by apply extension_absent.
Qed.

Lemma extension_unchanged_or_appended_witness :
  extension "themes.scss/dark" ".scss" = "themes.scss/dark" /\
  extension "themes/dark" ".scss" = "themes/dark.scss".
Proof.
  split.
  - apply (extension_unchanged_or_appended "themes.scss/dark" ".scss").
    + by vm_compute.
    + by exists "themes", "/dark".
  - reflexivity.
Defined.

(** C8: normalising twice gives what normalising once gives:
    [extension (extension s e) e = extension s e]. *)
Theorem extension_idempotent (s e : string) :
  index_fits_int32 s ->
  extension (extension s e) e = extension s e.
Proof.
  intros Hlen. destruct (occurs_in_dec e s) as [Hocc|Hno].
  - by rewrite !(extension_present s e Hlen Hocc).
  - rewrite (extension_absent s e Hno).
    apply extension_at_index. unfold indexOf, index_fits_int32 in *.
    pose proof (indexOf_from_occurrence s e "" 0) as Hi.
    rewrite app_nil_r_string in Hi. lia.
Qed.

Lemma extension_idempotent_witness :
  extension (extension "partials/grid" ".scss") ".scss" =
  extension "partials/grid" ".scss".
Proof. apply extension_idempotent. by vm_compute. Defined.

(** ** The factory *)

Lemma dotted_kept (ext : string) : starts_with_dot ext -> dotted ext = ext.
Proof. by intros [rest ->]. Qed.

Lemma dotted_prefixed (ext : string) :
  ~ starts_with_dot ext -> dotted ext = "." +:+ ext.
Proof.
  intros Hno. unfold dotted.
  destruct (String.eqb_spec (charAt ext 0) ".") as [Heq|Hne]; [|done].
  exfalso. apply Hno. destruct ext as [|c rest]; [done|].
  exists rest. unfold charAt in Heq. simpl in Heq. by inversion Heq.
Qed.

Lemma dotted_starts_with_dot (ext : string) : starts_with_dot (dotted ext).
Proof.
  unfold dotted. destruct (String.eqb_spec (charAt ext 0) ".") as [Heq|Hne].
  - simpl. destruct ext as [|c rest]; [done|].
    exists rest. unfold charAt in Heq. simpl in Heq. by inversion Heq.
  - simpl. by exists ext.
Qed.

(** C9: the factory takes the current working directory for [root] and
    ['.scss'] for the extension when the option is not given, keeps a
    given extension that begins with ['.'], puts a ['.'] in front of one
    that does not, and hands back the resolution function of exactly that
    root and extension. *)
Theorem importer_configuration `{P : PathModule} (cwd : string)
    (options : option importer_options) :
  exists root ext : string,
    importer cwd options = resolve root ext /\
    root = default cwd (options ≫= opt_root) /\
    match options ≫= opt_ext with
    | None => ext = ".scss"
    | Some given =>
        (starts_with_dot given -> ext = given) /\
        (~ starts_with_dot given -> ext = "." +:+ given)
    end /\
    starts_with_dot ext.
Proof.
  exists (default cwd (options ≫= opt_root)),
         (dotted (default ".scss" (options ≫= opt_ext))).
  split; [by destruct options | split; [done|]]. split.
  - destruct (options ≫= opt_ext) as [given|]; [|done]. simpl. split.
    + apply dotted_kept.
    + apply dotted_prefixed.
  - apply dotted_starts_with_dot.
Qed.

(** ** The two resolvers *)

Section ResolverFacts.
Context {P : PathModule}.
Variable w : world.

(** C6: [local] asks [fs.stat] about the joined path with the extension
    put on, answers that path when the existence check succeeds, and
    answers "not found" otherwise; it never carries an error, whatever
    error the existence check came back with. *)
Theorem local_found_or_absent {R : Type} (base file ext : string)
    (next : callback R) :
  let path := extension (path_join base file) ext in
  let exist :=
    match stat_answer w path with
    | (None, Some _) => true
    | _ => false
    end in
  events w (local base file ext next) =
    EvLog "Resolving file locally: %s" (LogStr file) :: EvStat path ::
    events w (next None (if exist then Some path else None)) /\
  answer w file ext (LocalStrategy, base) =
    Some (None, if exist then Some path else None) /\
  (forall (e : js_error) (st : option fs_stats),
     stat_answer w path = (Some e, st) ->
     answer w file ext (LocalStrategy, base) = Some (None, None)).
Proof.
  intros path exist. subst exist. unfold answer, bound, local, exists_.
  simpl. fold path. repeat split.
  - by destruct (stat_answer w path) as [[e|] [st|]].
  - by destruct (stat_answer w path) as [[e|] [st|]].
  - intros e st ->. by destruct st.
Qed.

(** C3: [node] first asks the module resolution for the specifier with
    the extension put on, from the given base; only when that gives no
    result does it ask a second time, for the specifier as written and
    from the same base.  The first result obtained is the answer; when
    neither call gives one, the answer is "not found" together with the
    error of the second call, handed to the callback and not thrown. *)
Theorem node_extended_then_bare {R : Type} (base file ext : string)
    (next : callback R) :
  let first := resolve_answer w (extension file ext) base in
  let second := resolve_answer w file base in
  events w (node base file ext next) =
    EvLog "Resolving file from node_modules: %s" (LogStr file) ::
    EvResolve (extension file ext) base ::
    (if truthy_str first.2 then events w (next None first.2)
     else EvResolve file base :: events w (next second.1 second.2)) /\
  answer w file ext (PackageStrategy, base) =
    Some (if truthy_str first.2 then (None, first.2) else second).
Proof.
  intros first second. unfold answer, bound, node. simpl.
  fold first second. split.
  - by destruct (truthy_str first.2).
  - destruct (truthy_str first.2); [done|]. simpl. fold second.
    by destruct second.
Qed.

(** Every bound resolver calls its callback once, after its own
    collaborator calls, and neither completes nor throws by itself. *)
Lemma bound_then_next {R : Type} (url ext : string) (a : attempt)
    (next : callback R) :
  exists (e : option js_error) (f : option string),
    answer w url ext a = Some (e, f) /\
    events w (bound a url ext next) =
      events w (bound a url ext probe) ++ events w (next e f) /\
    completions (events w (bound a url ext probe)) = [].
Proof.
  destruct a as [[|] base]; unfold answer, bound, local, node, exists_;
    simpl.
  - destruct (stat_answer w _) as [[err|] [st|]]; simpl;
      by eexists _, _.
  - destruct (truthy_str (resolve_answer w (extension url ext) base).2)
      eqn:Hfirst; simpl.
    + by eexists _, _.
    + by eexists _, _.
Qed.

End ResolverFacts.

(** ** The stack *)

Lemma calls_app (l1 l2 : list event) : calls (l1 ++ l2) = calls l1 ++ calls l2.
Proof. apply List.filter_app. Qed.

Lemma calls_log (fmt : string) (arg : log_arg) (l : list event) :
  calls (EvLog fmt arg :: l) = calls l.
Proof. reflexivity. Qed.

Lemma completions_app (l1 l2 : list event) :
  completions (l1 ++ l2) = completions l1 ++ completions l2.
Proof. apply List.filter_app. Qed.

Lemma completions_calls (l : list event) :
  completions (calls l) = completions l.
Proof.
  induction l as [|e l IH]; [done|].
  destruct e; simpl; by rewrite ?IH.
Qed.

Section StackFacts.
Context {P : PathModule}.
Variable w : world.
Variables url ext prev : string.

Let fatal : event :=
  EvThrow (ThrownError ("Could not find file: " +:+ url +:+
                        " from parent " +:+ prev)).

(** One turn of [run]: the head resolver works, then [next] decides. *)
Lemma run_step (a : attempt) (rest : list (resolver unit))
    (error : option js_error) :
  exists (e : option js_error) (f : option string),
    answer w url ext a = Some (e, f) /\
    events w (run url ext prev host_done (bound a :: rest) error) =
      events w (bound a url ext probe) ++
      match truthy_file f with
      | Some file => [EvDone (FileObject file)]
      | None =>
          if Nat.eqb (length rest) 0 then
            if truthy_obj (js_or error e) then [fatal] else [EvDone NoArgs]
          else
            EvLog "Stack step complete, iterating over remaining %d"
                  (LogNum (length rest)) ::
            events w (run url ext prev host_done rest e)
      end.
Proof.
  simpl run.
  match goal with
  | |- context [bound a url ext ?k] =>
      destruct (bound_then_next w url ext a k) as (e & f & Ha & Hev & _)
  end.
  exists e, f. split; [done|]. rewrite Hev. f_equal.
  destruct (truthy_file f); [done|].
  destruct (Nat.eqb (length rest) 0); [|done].
  by destruct (truthy_obj (js_or error e)).
Qed.

Lemma attempt_calls_no_completion (l : list attempt) :
  completions (l ≫= attempt_calls w url ext) = [].
Proof.
  induction l as [|a l IH]; [done|].
  rewrite bind_cons, completions_app, IH. unfold attempt_calls.
  rewrite completions_calls.
  destruct (bound_then_next w url ext a probe) as (_ & _ & _ & _ & ->).
  done.
Qed.

(** The stack up to its first attempt that produces a file. *)
Lemma run_until_found (pre post : list attempt) (a : attempt)
    (file : string) (error : option js_error) :
  Forall (fun b => found w url ext b = None) pre ->
  found w url ext a = Some file ->
  calls (events w (run url ext prev host_done
                     (bound <$> pre ++ a :: post) error)) =
    (pre ≫= attempt_calls w url ext) ++ attempt_calls w url ext a ++
    [EvDone (FileObject file)].
Proof.
  intros Hpre Ha. revert error.
  induction Hpre as [|b pre Hb Hpre IH]; intros error.
  - rewrite app_nil_l, fmap_cons.
    change ([] ≫= attempt_calls w url ext) with (@nil event).
    rewrite app_nil_l.
    destruct (run_step a (bound <$> post) error)
      as (e & f & Hans & ->).
    unfold found in Ha. rewrite Hans in Ha. simpl in Ha.
    by rewrite Ha, calls_app.
  - rewrite <- app_comm_cons, fmap_cons, bind_cons.
    destruct (run_step b (bound <$> pre ++ a :: post) error)
      as (e & f & Hans & ->).
    unfold found in Hb. rewrite Hans in Hb. simpl in Hb. rewrite Hb.
    rewrite length_fmap, length_app. simpl length.
    replace (length pre + S (length post)) with
      (S (length pre + length post)) by lia.
    simpl Nat.eqb. cbv iota.
    rewrite calls_app, calls_log, IH.
    by rewrite <- app_assoc.
Qed.

(** The stack when no attempt produces a file. *)
Lemma run_exhausted (atts : list attempt) (error : option js_error) :
  atts <> [] ->
  Forall (fun b => found w url ext b = None) atts ->
  calls (events w (run url ext prev host_done (bound <$> atts) error)) =
    (atts ≫= attempt_calls w url ext) ++
    [if truthy_obj (final_error w url ext error atts)
     then fatal else EvDone NoArgs].
Proof.
  intros Hne Hall. revert error.
  induction Hall as [|b rest Hb Hrest IH]; intros error; [done|].
  rewrite fmap_cons, bind_cons.
  destruct (run_step b (bound <$> rest) error) as (e & f & Hans & ->).
  unfold found in Hb. rewrite Hans in Hb. simpl in Hb. rewrite Hb.
  assert (Hc : carried w url ext b = e)
    by (unfold carried; by rewrite Hans).
  rewrite length_fmap, calls_app, <- app_assoc. f_equal.
  destruct rest as [|c rest].
  - simpl. rewrite Hc. by destruct (truthy_obj (js_or error e)).
  - simpl length. simpl Nat.eqb. cbv iota.
    rewrite calls_log, IH by done. simpl final_error. by rewrite Hc.
Qed.

(** Either no attempt of a list produces a file, or there is a first one
    that does. *)
Lemma first_found (atts : list attempt) :
  Forall (fun b => found w url ext b = None) atts \/
  exists (pre post : list attempt) (a : attempt) (file : string),
    atts = pre ++ a :: post /\
    Forall (fun b => found w url ext b = None) pre /\
    found w url ext a = Some file.
Proof.
  induction atts as [|b atts IH]; [by left|].
  destruct (found w url ext b) as [file|] eqn:Hb.
  - right. by exists [], atts, b, file.
  - destruct IH as [Hall|(pre & post & a & file & -> & Hpre & Ha)].
    + left. by constructor.
    + right. exists (b :: pre), post, a, file. by repeat constructor.
Qed.

End StackFacts.

(** ** The base directories *)

Lemma truthy_file_present (v : option string) :
  is_present v -> truthy_file v = v.
Proof.
  intros [Hsome Hne]. destruct v as [s|]; [|done].
  unfold truthy_file, truthy_str.
  destruct (String.eqb_spec s "") as [->|]; done.
Qed.

Lemma truthy_file_not_present (v : option string) :
  ~ is_present v -> truthy_file v = None.
Proof.
  intros Hno. destruct v as [s|]; [|done].
  unfold truthy_file, truthy_str.
  destruct (String.eqb_spec s "") as [->|Hne]; [done|].
  exfalso. apply Hno. split; congruence.
Qed.

Lemma filter_Boolean_filter (l : list (option string)) :
  Some <$> filter_Boolean l = filter is_present l.
Proof.
  unfold filter_Boolean. induction l as [|v l IH]; [done|].
  change (omap truthy_file (v :: l)) with
    (match truthy_file v with
     | Some s => s :: omap truthy_file l
     | None => omap truthy_file l
     end).
  destruct (decide (is_present v)) as [Hv|Hv].
  - rewrite filter_cons_True by done.
    rewrite (truthy_file_present v Hv).
    destruct v as [s|]; [|by destruct Hv]. rewrite fmap_cons. by rewrite IH.
  - rewrite filter_cons_False by done.
    by rewrite (truthy_file_not_present v Hv).
Qed.

Lemma concat_includes (inc : concat_arg) (dir root : string) :
  concat [inc; Value (Some dir); Value (Some root)] =
  match inc with Value v => [v] | Array l => l end ++ [Some dir; Some root].
Proof. unfold concat. simpl. by destruct inc. Qed.

Section BaseDirectories.
Context {P : PathModule}.

Lemma includes_of_filter (root : string)
    (this_options : option host_options) (prev : string) :
  Some <$> includes_of root this_options prev =
  base_directories (host_include_paths this_options)
                   (path_dirname prev) root.
Proof.
  unfold includes_of, base_directories, host_include_paths.
  by rewrite filter_Boolean_filter, concat_includes.
Qed.

(** C5: the base-directory list is the host's include paths in their
    order, then the directory of the previously resolved file, then the
    root, with the absent and empty entries taken out; what stays keeps
    its place relative to the rest. *)
Theorem includes_in_given_order (root : string)
    (this_options : option host_options) (prev : string) :
  Some <$> includes_of root this_options prev =
    base_directories (host_include_paths this_options)
                     (path_dirname prev) root /\
  (Some <$> includes_of root this_options prev) `sublist_of`
    (host_include_paths this_options ++
     [Some (path_dirname prev); Some root]) /\
  (forall s : string,
     s ∈ includes_of root this_options prev <->
     s <> "" /\
     Some s ∈ host_include_paths this_options ++
              [Some (path_dirname prev); Some root]).
Proof.
  pose proof (includes_of_filter root this_options prev) as Heq.
  split; [done|]. split.
  - rewrite Heq. apply sublist_filter.
  - intros s. split.
    + intros Hs. apply (list_elem_of_fmap_2 Some) in Hs.
      rewrite Heq in Hs. apply list_elem_of_filter in Hs as [[_ Hne] Hin].
      split; [congruence | done].
    + intros [Hne Hin].
      assert (Hs : Some s ∈ Some <$> includes_of root this_options prev).
      { rewrite Heq. apply list_elem_of_filter. split; [|done].
        split; congruence. }
      apply list_elem_of_fmap in Hs as (s' & [= ->] & Hs'). done.
Qed.

Lemma dirname_in_includes `{!PathLaws P} (root : string)
    (this_options : option host_options) (prev : string) :
  path_dirname prev ∈ includes_of root this_options prev.
Proof.
  pose proof (dirname_not_empty prev) as Hne.
  assert (Hs : Some (path_dirname prev) ∈
               Some <$> includes_of root this_options prev).
  { rewrite includes_of_filter. apply list_elem_of_filter. split.
    - split; congruence.
    - apply elem_of_app. right. apply elem_of_cons. by left. }
  apply list_elem_of_fmap in Hs as (s' & [= ->] & Hs'). done.
Qed.

Lemma fns_of_attempts (includes : list string) :
  fns_of includes = bound <$> attempts includes.
Proof.
  unfold fns_of, attempts. simpl. rewrite fmap_app. f_equal.
  - induction includes as [|b l IH]; [done|]. simpl. by f_equal.
  - induction includes as [|b l IH]; [done|]. simpl. by f_equal.
Qed.

End BaseDirectories.

(** The POSIX [dirname] obeys the law of the interface. *)
Lemma posix_dirname_end_positive (path : string) (i : nat) (m : bool)
    (e : nat) :
  Posix.dirname_end path i m = Some e -> 1 <= e.
Proof.
  revert m. induction i as [|j IH]; intros m; simpl; [done|].
  destruct (Posix.char_is_slash path (S j)); [destruct m|]; eauto.
  intros [= <-]. lia.
Qed.

Lemma posix_path_laws : PathLaws Posix.path.
Proof.
  constructor. intros p. simpl. unfold Posix.dirname.
  destruct (Nat.eqb (String.length p) 0) eqn:Hlen; [done|].
  destruct (Posix.dirname_end p (String.length p - 1) true) as [e|] eqn:He.
  - destruct (Posix.has_root p && Nat.eqb e 1); [done|].
    apply posix_dirname_end_positive in He.
    destruct p as [|c p]; [done|]. destruct e as [|e]; [lia|]. done.
  - by destruct (Posix.has_root p).
Qed.

(** ** The whole call *)

Lemma elem_of_calls (x : event) (l : list event) :
  x ∈ calls l <-> x ∈ l /\ is_call x = true.
Proof. unfold calls. rewrite !list_elem_of_In. apply List.filter_In. Qed.

Section CallFacts.
Context {P : PathModule}.
Variable w : world.
Variables root ext : string.
Variable this_options : option host_options.
Variables url prev : string.

Let includes : list string := includes_of root this_options prev.
Let call : proc unit := resolve root ext this_options url prev host_done.

Lemma calls_of_call :
  calls (events w call) =
  calls (events w (run url ext prev host_done
                     (bound <$> attempts includes) None)).
Proof.
  unfold call, resolve. fold includes. by rewrite fns_of_attempts.
Qed.

(** C1: the attempt list of a call is a local attempt for each include
    path in order, then a package attempt for each include path in order.
    The attempts run one after the other in that order, and the first one
    that produces a file ends the call: [done] receives that file and no
    later attempt is started. *)
Theorem resolve_first_match (pre post : list attempt) (a : attempt)
    (file : string) :
  attempts includes = pre ++ a :: post ->
  Forall (fun b => found w url ext b = None) pre ->
  found w url ext a = Some file ->
  fns_of includes = bound <$> attempts includes /\
  calls (events w call) =
    (pre ≫= attempt_calls w url ext) ++ attempt_calls w url ext a ++
    [EvDone (FileObject file)].
Proof.
  intros Hsplit Hpre Ha. split; [apply fns_of_attempts|].
  rewrite calls_of_call, Hsplit. by apply run_until_found.
Qed.

(** What a call does when no attempt produces a file. *)
Lemma resolve_exhausted :
  includes <> [] ->
  Forall (fun b => found w url ext b = None) (attempts includes) ->
  calls (events w call) =
    (attempts includes ≫= attempt_calls w url ext) ++
    [if truthy_obj (final_error w url ext None (attempts includes))
     then EvThrow (ThrownError ("Could not find file: " +:+ url +:+
                                " from parent " +:+ prev))
     else EvDone NoArgs].
Proof.
  intros Hne Hall. rewrite calls_of_call. apply run_exhausted; [|done].
  unfold attempts. by destruct includes.
Qed.

(** Without any carried error the stack ends with no error in hand. *)
Lemma final_error_none (atts : list attempt) :
  Forall (fun b => carried w url ext b = None) atts ->
  final_error w url ext None atts = None.
Proof.
  assert (H : forall error, error = None ->
            Forall (fun b => carried w url ext b = None) atts ->
            final_error w url ext error atts = None).
  { induction atts as [|a rest IH]; intros error -> Hall; [done|].
    apply Forall_cons in Hall as [Ha Hrest]. simpl.
    destruct rest as [|c rest]; [by rewrite Ha|]. by apply IH. }
  by apply H.
Qed.

(** An error carried by the last attempt is in hand at the end. *)
Lemma final_error_last (atts : list attempt) (a : attempt)
    (error : option js_error) (e : js_error) :
  carried w url ext a = Some e ->
  truthy_obj (final_error w url ext error (atts ++ [a])) = true.
Proof.
  intros Ha. revert error. induction atts as [|b rest IH]; intros error.
  - simpl. rewrite Ha. by destruct error.
  - rewrite <- app_comm_cons. simpl.
    destruct (rest ++ [a]) eqn:E; [by destruct rest|]. apply IH.
Qed.

(** C4: over a fixed state of the collaborators a call completes exactly
    once: among its events there is one completion, and it is [done] with
    a file, [done] without arguments, or the fatal error. *)
Theorem resolve_completes_once `{!PathLaws P} :
  exists c : event,
    completions (events w call) = [c] /\ specified_completion c.
Proof.
  assert (Hne : includes <> []).
  { pose proof (dirname_in_includes root this_options prev) as Hin.
    fold includes in Hin. intros E. rewrite E in Hin.
    by apply elem_of_nil in Hin. }
  rewrite <- completions_calls.
  destruct (first_found w url ext (attempts includes))
    as [Hall|(pre & post & a & file & Hsplit & Hpre & Ha)].
  - rewrite (resolve_exhausted Hne Hall), completions_app.
    rewrite attempt_calls_no_completion.
    destruct (truthy_obj _); eexists; split; try done; constructor.
  - rewrite calls_of_call, Hsplit.
    rewrite (run_until_found w url ext prev pre post a file None Hpre Ha).
    rewrite !completions_app, attempt_calls_no_completion.
    pose proof (attempt_calls_no_completion w url ext [a]) as Hone.
    rewrite bind_cons, completions_app in Hone.
    apply app_eq_nil in Hone as [-> _].
    eexists; split; [done | constructor].
Qed.

(** The first local attempt is always made. *)
Lemma first_local_stat (base : string) (rest : list string)
    (error : option js_error) :
  EvStat (extension (path_join base url) ext) ∈
  events w (run url ext prev host_done
              (bound <$> attempts (base :: rest)) error).
Proof.
  change (attempts (base :: rest)) with
    ((LocalStrategy, base) ::
     (map (pair LocalStrategy) rest ++
      map (pair PackageStrategy) (base :: rest))).
  rewrite fmap_cons.
  match goal with
  | |- context [run _ _ _ _ (_ :: ?tl) _] =>
      destruct (run_step w url ext prev (LocalStrategy, base) tl error)
        as (e & f & _ & ->)
  end.
  apply elem_of_app. left. unfold bound, local, exists_. simpl.
  apply elem_of_cons. right. apply elem_of_cons. by left.
Qed.

(** C10, as the code has it: the directory of the previously resolved
    file is always among the base directories, so the list is never
    empty, also when the root and the host's include paths are absent or
    empty; the attempt list then holds a local and a package attempt for
    the first base directory, the first local attempt is always made, and
    a package attempt is made whenever no local attempt produces a file. *)
Theorem base_directories_never_empty `{!PathLaws P} :
  path_dirname prev ∈ includes /\
  includes_of "" None prev = [path_dirname prev] /\
  exists (base : string) (rest : list string),
    includes = base :: rest /\
    (LocalStrategy, base) ∈ attempts includes /\
    (PackageStrategy, base) ∈ attempts includes /\
    EvStat (extension (path_join base url) ext) ∈ events w call /\
    (Forall (fun b => found w url ext (LocalStrategy, b) = None) includes ->
     exists basedir : string,
       basedir ∈ includes /\
       EvResolve (extension url ext) basedir ∈ events w call).
Proof.
  pose proof (dirname_in_includes root this_options prev) as Hin.
  fold includes in Hin. split; [done|]. split.
  { pose proof (dirname_not_empty prev) as Hne.
    unfold includes_of, filter_Boolean, concat. simpl.
    rewrite (truthy_file_present (Some (path_dirname prev)))
      by (split; congruence).
    done. }
  destruct includes as [|base rest] eqn:Hinc;
    [by apply elem_of_nil in Hin|].
  exists base, rest. split; [done|].
  assert (Hlocal : (LocalStrategy, base) ∈ attempts (base :: rest))
    by (unfold attempts; simpl; apply elem_of_cons; by left).
  assert (Hpackage : (PackageStrategy, base) ∈ attempts (base :: rest)).
  { unfold attempts. apply elem_of_app. right. simpl.
    apply elem_of_cons. by left. }
  split; [done|]. split; [done|].
  assert (Hrun : events w call =
    EvLog "Resolving: %s" (LogStr url) ::
    events w (run url ext prev host_done
                (bound <$> attempts (base :: rest)) None)).
  { unfold call, resolve. fold includes. by rewrite fns_of_attempts, Hinc. }
  split.
  - rewrite Hrun. apply elem_of_cons. right. apply first_local_stat.
  - intros Hlocals.
    assert (Hcalls : forall b : string, b ∈ base :: rest ->
              EvResolve (extension url ext) b ∈
              attempt_calls w url ext (PackageStrategy, b)).
    { intros b _. unfold attempt_calls, bound, node. simpl.
      apply elem_of_cons. by left. }
    assert (Hsub : forall (b : string) (l : list attempt),
              (PackageStrategy, b) ∈ l ->
              EvResolve (extension url ext) b ∈
              l ≫= attempt_calls w url ext).
    { intros b l Hb. apply list_elem_of_bind.
      exists (PackageStrategy, b). split; [|done].
      unfold attempt_calls, bound, node. simpl.
      apply elem_of_cons. by left. }
    assert (Hobs : forall x : event,
              x ∈ calls (events w call) -> x ∈ events w call)
      by (intros x Hx; by apply elem_of_calls in Hx as [? _]).
    destruct (first_found w url ext (attempts (base :: rest)))
      as [Hall|(pre & post & a & file & Hsplit & Hpre & Ha)].
    + exists base. split; [apply elem_of_cons; by left|].
      apply Hobs. fold includes in Hinc.
      assert (Hne : includes <> []) by (rewrite Hinc; done).
      pose proof (resolve_exhausted Hne) as Hex.
      fold call in Hex. rewrite Hinc in Hex.
      rewrite (Hex Hall). apply elem_of_app. left. by apply Hsub.
    + destruct a as [[|] b].
      * exfalso.
        assert (Hb : (LocalStrategy, b) ∈ attempts (base :: rest))
          by (rewrite Hsplit; apply elem_of_app; right;
              apply elem_of_cons; by left).
        unfold attempts in Hb. apply elem_of_app in Hb as [Hb|Hb].
        -- apply list_elem_of_In, List.in_map_iff in Hb
             as (b' & [= ->] & Hb').
           apply list_elem_of_In in Hb'.
           rewrite Forall_forall in Hlocals.
           specialize (Hlocals b Hb'). congruence.
        -- apply list_elem_of_In, List.in_map_iff in Hb
             as (b' & [=] & _).
      * exists b. split.
        -- assert (Hb : (PackageStrategy, b) ∈ attempts (base :: rest))
             by (rewrite Hsplit; apply elem_of_app; right;
                 apply elem_of_cons; by left).
           unfold attempts in Hb. apply elem_of_app in Hb as [Hb|Hb].
           ++ apply list_elem_of_In, List.in_map_iff in Hb
                as (b' & [=] & _).
           ++ apply list_elem_of_In, List.in_map_iff in Hb
                as (b' & [= ->] & Hb').
              by apply list_elem_of_In.
        -- apply Hobs. rewrite calls_of_call. fold includes in Hinc.
           rewrite Hinc, Hsplit.
           rewrite (run_until_found w url ext prev pre post
                      (PackageStrategy, b) file None Hpre Ha).
           apply elem_of_app. right. apply elem_of_app. left.
           unfold attempt_calls, bound, node. simpl.
           apply elem_of_cons. by left.
Qed.

End CallFacts.

(** Only the last two attempts of a stack decide whether it ends with an
    error in hand. *)
Lemma final_error_last_two `{P : PathModule} (w : world)
    (url ext : string) (atts : list attempt) (a b : attempt)
    (error : option js_error) :
  final_error w url ext error (atts ++ [a; b]) =
  js_or (carried w url ext a) (carried w url ext b).
Proof.
  revert error. induction atts as [|c rest IH]; intros error; [done|].
  rewrite <- app_comm_cons. simpl.
  destruct (rest ++ [a; b]) eqn:E; [by destruct rest|]. apply IH.
Qed.

(** ** Concrete runs on the POSIX instance *)

Lemma resolve_first_match_witness :
  calls (events Sample.package_world
           (resolve (P:=Posix.path) "/proj" ".scss" None "some-lib"
                    "/proj/src/main.scss" host_done)) =
  [EvStat "/proj/src/some-lib.scss"; EvStat "/proj/some-lib.scss";
   EvResolve "some-lib.scss" "/proj/src"; EvResolve "some-lib" "/proj/src";
   EvResolve "some-lib.scss" "/proj"; EvResolve "some-lib" "/proj";
   EvDone (FileObject "/proj/node_modules/some-lib/index.scss")].
Proof.
  refine (proj2 (resolve_first_match (P:=Posix.path) Sample.package_world
    "/proj" ".scss" None "some-lib" "/proj/src/main.scss"
    [(LocalStrategy, "/proj/src"); (LocalStrategy, "/proj");
     (PackageStrategy, "/proj/src")]
    [] (PackageStrategy, "/proj")
    "/proj/node_modules/some-lib/index.scss" _ _ _)).
  - reflexivity.
  - repeat constructor.
  - reflexivity.
Defined.

Lemma resolve_completes_once_witness :
  exists c : event,
    completions (events Sample.empty_world
                   (resolve (P:=Posix.path) "/proj" ".scss" None "foo"
                            "/proj/src/main.scss" host_done)) = [c] /\
    specified_completion c.
Proof.
  apply (resolve_completes_once (P:=Posix.path)). apply posix_path_laws.
Defined.

Lemma base_directories_never_empty_witness :
  includes_of (P:=Posix.path) "" None "stdin" = ["."].
Proof.
  exact (proj1 (proj2 (@base_directories_never_empty Posix.path
           Sample.empty_world "" ".scss" None "foo" "stdin"
           posix_path_laws))).
Defined.

(** C2, at an input where the claim and the code part ways: three base
    directories, nothing found anywhere, and the module resolution reports
    an error from the first base only.  The attempt on [/vendor] carries
    that error, yet the call ends with [done()] and not with the fatal
    error: [next] hands the following [run] its own [err], not the
    [error] it has accumulated. *)
Theorem earlier_error_forgotten :
  let this_options := Some (HostOptions (Array [Some "/vendor"])) in
  let call :=
    importer (P:=Posix.path) "/proj" None this_options "foo"
             "/proj/src/main.scss" host_done in
  includes_of (P:=Posix.path) "/proj" this_options "/proj/src/main.scss" =
    ["/vendor"; "/proj/src"; "/proj"] /\
  carried (P:=Posix.path) Sample.vendor_error_world "foo" ".scss"
          (PackageStrategy, "/vendor") =
    Some (JsError "EACCES: permission denied") /\
  completions (events Sample.vendor_error_world call) = [EvDone NoArgs].
Proof.
  intros this_options call. split; [|split].
  - reflexivity.
  - reflexivity.
  - by vm_compute.
Qed.

(** Scenario A of the specification: the local attempt beside the
    importing file produces the file, and the call ends there without a
    single package attempt. *)
Lemma package_attempt_not_made :
  ~ exists request basedir : string,
      EvResolve request basedir ∈
      events Sample.local_world
        (importer (P:=Posix.path) "/proj" None None "foo"
                  "/proj/src/main.scss" host_done).
Proof.
  intros (request & basedir & Hin).
  change (EvResolve request basedir ∈
          [EvLog "Resolving: %s" (LogStr "foo");
           EvLog "Resolving file locally: %s" (LogStr "foo");
           EvStat "/proj/src/foo.scss";
           EvDone (FileObject "/proj/src/foo.scss")]) in Hin.
  repeat (apply elem_of_cons in Hin as [Hin|Hin]; [discriminate|]).
  by apply elem_of_nil in Hin.
Qed.

(** * Further properties of the code *)

(** ** [extension] without a bound on the length *)

(** Whatever the file and the extension, the string [extension] returns
    has the extension somewhere in it. *)
Theorem extension_carries_ext (s e : string) :
  occurs_in e (extension s e).
Proof.
  unfold extension.
  destruct (not_num (bit_not (indexOf s e))) eqn:Htest.
  - apply occurs_in_self_appended.
  - destruct (Z.eq_dec (indexOf s e) (-1)%Z) as [Heq|Hne].
    + rewrite Heq in Htest. by vm_compute in Htest.
    + by apply (indexOf_from_found s e 0).
Qed.

Lemma indexOf_empty_ext (s : string) : indexOf s "" = 0%Z.
Proof. by destruct s. Qed.

(** With the empty extension [extension] changes no file. *)
Theorem extension_empty_ext (s : string) : extension s "" = s.
Proof. unfold extension. by rewrite indexOf_empty_ext. Qed.

(** ** The factory *)

(** An extension given without its dot configures the same importer as
    the extension given with it. *)
Theorem importer_leading_dot_optional `{P : PathModule} (cwd : string)
    (root : option string) (e : string) :
  ~ starts_with_dot e ->
  importer cwd (Some (ImporterOptions root (Some e))) =
  importer cwd (Some (ImporterOptions root (Some ("." +:+ e)))).
Proof.
  intros Hno. unfold importer. simpl.
  rewrite (dotted_prefixed e Hno).
  by rewrite (dotted_kept ("." +:+ e)) by (by exists e).
Qed.

Lemma importer_leading_dot_optional_witness :
  importer (P:=Posix.path) "/proj" (Some (ImporterOptions None (Some "sass")))
  = importer (P:=Posix.path) "/proj"
             (Some (ImporterOptions None (Some ".sass"))).
Proof.
  apply (importer_leading_dot_optional (P:=Posix.path) "/proj" None "sass").
  intros [rest Hrest]. discriminate Hrest.
Defined.

(** ** The base directories *)

Section BaseDirectoryShape.
Context {P : PathModule}.

Lemma includes_of_split (root : string)
    (this_options : option host_options) (prev : string) :
  includes_of root this_options prev =
  filter_Boolean (host_include_paths this_options) ++
  filter_Boolean [Some (path_dirname prev); Some root].
Proof.
  unfold includes_of, host_include_paths.
  rewrite concat_includes. unfold filter_Boolean. apply omap_app.
Qed.

(** The host's include paths come first: the base directories are the
    present include paths of the host, then the directory of the
    previously resolved file, then the root unless it is empty. *)
Theorem includes_host_paths_first `{!PathLaws P} (root : string)
    (this_options : option host_options) (prev : string) :
  includes_of root this_options prev =
  filter_Boolean (host_include_paths this_options) ++
  path_dirname prev :: (if decide (root = "") then [] else [root]).
Proof.
  rewrite includes_of_split. f_equal.
  pose proof (dirname_not_empty prev) as Hdir.
  unfold filter_Boolean.
  change (omap truthy_file [Some (path_dirname prev); Some root]) with
    (match truthy_file (Some (path_dirname prev)) with
     | Some s => s :: match truthy_file (Some root) with
                      | Some r => [r]
                      | None => []
                      end
     | None => match truthy_file (Some root) with
               | Some r => [r]
               | None => []
               end
     end).
  rewrite (truthy_file_present (Some (path_dirname prev)))
    by (split; congruence).
  f_equal. destruct (decide (root = "")) as [->|Hroot]; [done|].
  by rewrite (truthy_file_present (Some root)) by (split; congruence).
Qed.

(** Include paths of the host that are all absent or empty leave the base
    directories as they are without any include path. *)
Theorem empty_include_paths_ignored (root : string)
    (this_options : option host_options) (prev : string) :
  Forall (fun v => ~ is_present v) (host_include_paths this_options) ->
  includes_of root this_options prev = includes_of root None prev.
Proof.
  intros Hall. rewrite !includes_of_split. f_equal.
  unfold filter_Boolean.
  change (host_include_paths None) with [@None string].
  induction Hall as [|v l Hv Hall IH]; [done|].
  change (omap truthy_file (v :: l)) with
    (match truthy_file v with
     | Some s => s :: omap truthy_file l
     | None => omap truthy_file l
     end).
  by rewrite (truthy_file_not_present v Hv).
Qed.

End BaseDirectoryShape.

Lemma includes_host_paths_first_witness :
  includes_of (P:=Posix.path) "/proj"
    (Some (HostOptions (Array [Some "/vendor"; None; Some "/theme"])))
    "/proj/src/main.scss" =
  ["/vendor"; "/theme"; "/proj/src"; "/proj"].
Proof.
  exact (@includes_host_paths_first Posix.path posix_path_laws "/proj"
           (Some (HostOptions (Array [Some "/vendor"; None; Some "/theme"])))
           "/proj/src/main.scss").
Defined.

Lemma empty_include_paths_ignored_witness :
  includes_of (P:=Posix.path) "/proj"
    (Some (HostOptions (Array [Some ""; None]))) "/proj/src/main.scss" =
  includes_of (P:=Posix.path) "/proj" None "/proj/src/main.scss".
Proof.
  apply (empty_include_paths_ignored (P:=Posix.path)).
  repeat constructor; intros [Hn He]; congruence.
Defined.

(** ** Requests and completions of the stack *)

Lemma truthy_file_not_empty (v : option string) (file : string) :
  truthy_file v = Some file -> file <> "".
Proof.
  unfold truthy_file, truthy_str. destruct v as [s|]; [|done].
  destruct (String.eqb_spec s "") as [->|Hne]; [done|]. by intros [= <-].
Qed.

Lemma stat_count_app (l1 l2 : list event) :
  stat_count (l1 ++ l2) = stat_count l1 + stat_count l2.
Proof. unfold stat_count. by rewrite List.filter_app, length_app. Qed.

Lemma resolve_count_app (l1 l2 : list event) :
  resolve_count (l1 ++ l2) = resolve_count l1 + resolve_count l2.
Proof. unfold resolve_count. by rewrite List.filter_app, length_app. Qed.

Lemma strategy_count_app (s : strategy) (l1 l2 : list attempt) :
  strategy_count s (l1 ++ l2) = strategy_count s l1 + strategy_count s l2.
Proof. unfold strategy_count. by rewrite List.filter_app, length_app. Qed.

Lemma strategy_count_same (s : strategy) (l : list string) :
  strategy_count s (map (pair s) l) = length l.
Proof.
  unfold strategy_count. induction l as [|b l IH]; [done|].
  destruct s; simpl; f_equal; exact IH.
Qed.

Lemma strategy_count_local_of_package (l : list string) :
  strategy_count LocalStrategy (map (pair PackageStrategy) l) = 0.
Proof.
  unfold strategy_count. induction l as [|b l IH]; [done | exact IH].
Qed.

Lemma strategy_count_package_of_local (l : list string) :
  strategy_count PackageStrategy (map (pair LocalStrategy) l) = 0.
Proof.
  unfold strategy_count. induction l as [|b l IH]; [done | exact IH].
Qed.

Lemma strategy_count_attempts (includes : list string) :
  strategy_count LocalStrategy (attempts includes) = length includes /\
  strategy_count PackageStrategy (attempts includes) = length includes.
Proof.
  unfold attempts. rewrite !strategy_count_app, !strategy_count_same.
  rewrite strategy_count_local_of_package, strategy_count_package_of_local.
  lia.
Qed.

Section StackRequests.
Context {P : PathModule}.
Variable w : world.
Variables url ext prev : string.

Lemma local_probe_events (base : string) :
  events w (bound (LocalStrategy, base) url ext probe) =
  [EvLog "Resolving file locally: %s" (LogStr url);
   EvStat (extension (path_join base url) ext)].
Proof. reflexivity. Qed.

Lemma node_probe_events (base : string) :
  events w (bound (PackageStrategy, base) url ext probe) =
  EvLog "Resolving file from node_modules: %s" (LogStr url) ::
  EvResolve (extension url ext) base ::
  (if truthy_str (resolve_answer w (extension url ext) base).2 then []
   else [EvResolve url base]).
Proof. unfold bound, node. simpl. by destruct (truthy_str _). Qed.

Lemma probe_counts (a : attempt) :
  stat_count (events w (bound a url ext probe)) <=
    strategy_count LocalStrategy [a] /\
  resolve_count (events w (bound a url ext probe)) <=
    2 * strategy_count PackageStrategy [a].
Proof.
  destruct a as [[|] base].
  - rewrite local_probe_events. unfold strategy_count. simpl.
    unfold stat_count, resolve_count. simpl. lia.
  - rewrite node_probe_events. unfold strategy_count.
    destruct (truthy_str _); simpl; unfold stat_count, resolve_count;
      simpl; lia.
Qed.

Lemma run_request_counts (atts : list attempt) (error : option js_error) :
  stat_count (events w (run url ext prev host_done (bound <$> atts) error))
    <= strategy_count LocalStrategy atts /\
  resolve_count
    (events w (run url ext prev host_done (bound <$> atts) error))
    <= 2 * strategy_count PackageStrategy atts.
Proof.
  revert error. induction atts as [|a rest IH]; intros error.
  - unfold stat_count, resolve_count. simpl. lia.
  - rewrite fmap_cons.
    destruct (run_step w url ext prev a (bound <$> rest) error)
      as (e & f & _ & ->).
    rewrite stat_count_app, resolve_count_app.
    change (a :: rest) with ([a] ++ rest). rewrite !strategy_count_app.
    destruct (probe_counts a) as [Hs Hr].
    destruct (truthy_file f);
      [unfold stat_count, resolve_count in *; simpl; lia|].
    destruct (Nat.eqb _ 0).
    + destruct (truthy_obj _); unfold stat_count, resolve_count in *;
        simpl; lia.
    + destruct (IH e) as [IHs IHr].
      unfold stat_count, resolve_count in *. simpl List.filter. lia.
Qed.

(** The stack never calls [done] with an empty file. *)
Lemma run_reports_truthy (atts : list attempt) (error : option js_error)
    (file : string) :
  EvDone (FileObject file) ∈
    events w (run url ext prev host_done (bound <$> atts) error) ->
  file <> "".
Proof.
  revert error. induction atts as [|a rest IH]; intros error Hin.
  - simpl in Hin. apply list_elem_of_singleton in Hin. discriminate.
  - rewrite fmap_cons in Hin.
    destruct (run_step w url ext prev a (bound <$> rest) error)
      as (e & f & _ & Hev).
    rewrite Hev in Hin. apply elem_of_app in Hin as [Hin|Hin].
    + exfalso. destruct a as [[|] base].
      * rewrite local_probe_events in Hin.
        repeat (apply elem_of_cons in Hin as [Hin|Hin]; [discriminate|]).
        by apply elem_of_nil in Hin.
      * rewrite node_probe_events in Hin.
        destruct (truthy_str _);
          repeat (apply elem_of_cons in Hin as [Hin|Hin]; [discriminate|]);
          by apply elem_of_nil in Hin.
    + destruct (truthy_file f) as [file'|] eqn:Hf.
      * apply list_elem_of_singleton in Hin as [= ->].
        by apply (truthy_file_not_empty f).
      * destruct (Nat.eqb _ 0).
        -- destruct (truthy_obj _);
             apply list_elem_of_singleton in Hin; discriminate.
        -- apply elem_of_cons in Hin as [Hin|Hin]; [discriminate|].
           by apply (IH e).
Qed.

(** A local attempt that produces a file keeps every package attempt
    from being made, whatever follows the local attempts on the stack. *)
Lemma run_local_match (locals : list string) (rest : list attempt)
    (error : option js_error) (base file : string) :
  base ∈ locals ->
  found w url ext (LocalStrategy, base) = Some file ->
  resolve_count
    (events w (run url ext prev host_done
                 (bound <$> map (pair LocalStrategy) locals ++ rest)
                 error)) = 0.
Proof.
  intros Hin Hfound. revert error.
  induction locals as [|b locals IH]; intros error;
    [by apply elem_of_nil in Hin|].
  change (map (pair LocalStrategy) (b :: locals) ++ rest) with
    ((LocalStrategy, b) :: (map (pair LocalStrategy) locals ++ rest)).
  rewrite fmap_cons.
  destruct (run_step w url ext prev (LocalStrategy, b)
              (bound <$> map (pair LocalStrategy) locals ++ rest) error)
    as (e & f & Hans & ->).
  rewrite resolve_count_app, local_probe_events.
  destruct (truthy_file f) as [file'|] eqn:Hf; [done|].
  assert (Hb : found w url ext (LocalStrategy, b) = None)
    by (unfold found; by rewrite Hans).
  apply elem_of_cons in Hin as [->|Hin]; [congruence|].
  destruct locals as [|b' locals]; [by apply elem_of_nil in Hin|].
  simpl length. simpl Nat.eqb. cbv iota.
  specialize (IH Hin e). unfold resolve_count in *. simpl List.filter.
  simpl length at 1. exact IH.
Qed.

End StackRequests.

(** ** Requests and completions of a call *)

Section CallRequests.
Context {P : PathModule}.
Variable w : world.
Variables root ext : string.
Variable this_options : option host_options.
Variables url prev : string.

Let includes : list string := includes_of root this_options prev.
Let call : proc unit := resolve root ext this_options url prev host_done.
Let fatal : event :=
  EvThrow (ThrownError ("Could not find file: " +:+ url +:+
                        " from parent " +:+ prev)).

Lemma events_of_call :
  events w call =
  EvLog "Resolving: %s" (LogStr url) ::
  events w (run url ext prev host_done (bound <$> attempts includes) None).
Proof. unfold call, resolve. fold includes. by rewrite fns_of_attempts. Qed.

(** How a call ends: with the file of the first attempt that produces one,
    or, when none does, by what the stack holds for an error. *)
Lemma call_outcome :
  includes <> [] ->
  (exists (pre post : list attempt) (a : attempt) (file : string),
     attempts includes = pre ++ a :: post /\
     Forall (fun b => found w url ext b = None) pre /\
     found w url ext a = Some file /\
     calls (events w call) =
       (pre ≫= attempt_calls w url ext) ++ attempt_calls w url ext a ++
       [EvDone (FileObject file)]) \/
  (Forall (fun b => found w url ext b = None) (attempts includes) /\
   calls (events w call) =
     (attempts includes ≫= attempt_calls w url ext) ++
     [if truthy_obj (final_error w url ext None (attempts includes))
      then fatal else EvDone NoArgs]).
Proof.
  intros Hne.
  destruct (first_found w url ext (attempts includes))
    as [Hall|(pre & post & a & file & Hsplit & Hpre & Ha)].
  - right. split; [done|]. by apply resolve_exhausted.
  - left. exists pre, post, a, file. repeat split; try done.
    rewrite events_of_call, calls_log, Hsplit. by apply run_until_found.
Qed.

(** A file found by a local attempt wins over every package: when the
    local attempt of some base directory produces a file, the call makes
    no module resolution request at all. *)
Theorem local_match_skips_packages (base file : string) :
  base ∈ includes ->
  found w url ext (LocalStrategy, base) = Some file ->
  resolve_count (events w call) = 0.
Proof.
  intros Hin Hfound. rewrite events_of_call.
  unfold attempts.
  exact (run_local_match w url ext prev includes
           (map (pair PackageStrategy) includes) None base file Hin Hfound).
Qed.

(** A call asks [fs.stat] at most once and the module resolution at most
    twice for each base directory. *)
Theorem collaborator_requests_bounded :
  stat_count (events w call) <= length includes /\
  resolve_count (events w call) <= 2 * length includes.
Proof.
  rewrite events_of_call.
  destruct (run_request_counts w url ext prev (attempts includes) None)
    as [Hs Hr].
  destruct (strategy_count_attempts includes) as [Hl Hp].
  rewrite Hl in Hs. rewrite Hp in Hr.
  unfold stat_count, resolve_count in *. simpl List.filter. done.
Qed.

(** [done] never receives an empty file path: an empty string from a
    collaborator counts as nothing found. *)
Theorem reported_file_not_empty (file : string) :
  EvDone (FileObject file) ∈ events w call -> file <> "".
Proof.
  rewrite events_of_call. intros Hin.
  apply elem_of_cons in Hin as [Hin|Hin]; [discriminate|].
  by apply (run_reports_truthy w url ext prev (attempts includes) None).
Qed.

Lemma includes_not_empty `{!PathLaws P} : includes <> [].
Proof.
  pose proof (dirname_in_includes root this_options prev) as Hin.
  fold includes in Hin. intros E. rewrite E in Hin.
  by apply elem_of_nil in Hin.
Qed.

(** When no attempt produces a file and none carries an error, every
    attempt is made, in order, and the call ends with [done()]. *)
Theorem no_match_no_error_falls_back `{!PathLaws P} :
  Forall (fun b => found w url ext b = None) (attempts includes) ->
  Forall (fun b => carried w url ext b = None) (attempts includes) ->
  calls (events w call) =
    (attempts includes ≫= attempt_calls w url ext) ++ [EvDone NoArgs].
Proof.
  intros Hfound Hcarried.
  unfold call, includes.
  rewrite (resolve_exhausted w root ext this_options url prev
             includes_not_empty Hfound).
  by rewrite final_error_none by exact Hcarried.
Qed.

(** When no attempt produces a file, the call ends with the fatal error
    exactly when the package attempt of one of the last two base
    directories carries an error, and with [done()] otherwise. *)
Theorem fatal_iff_last_two_carry (earlier : list string)
    (b1 b2 : string) :
  includes = earlier ++ [b1; b2] ->
  Forall (fun b => found w url ext b = None) (attempts includes) ->
  completions (events w call) =
    [if truthy_obj (js_or (carried w url ext (PackageStrategy, b1))
                          (carried w url ext (PackageStrategy, b2)))
     then fatal else EvDone NoArgs].
Proof.
  intros Hinc Hall.
  assert (Hne : includes <> []) by (rewrite Hinc; by destruct earlier).
  rewrite <- completions_calls. unfold call, includes.
  rewrite (resolve_exhausted w root ext this_options url prev Hne Hall).
  rewrite completions_app, attempt_calls_no_completion.
  fold includes. rewrite Hinc.
  assert (Hatts : attempts (earlier ++ [b1; b2]) =
            (map (pair LocalStrategy) (earlier ++ [b1; b2]) ++
             map (pair PackageStrategy) earlier) ++
            [(PackageStrategy, b1); (PackageStrategy, b2)]).
  { unfold attempts.
    rewrite (List.map_app (pair PackageStrategy)). by rewrite app_assoc. }
  rewrite Hatts, final_error_last_two.
  by destruct (truthy_obj _).
Qed.

Lemma carried_without_resolve_error (a : attempt) :
  (forall request basedir : string,
     (resolve_answer w request basedir).1 = None) ->
  carried w url ext a = None.
Proof.
  intros Hres. destruct a as [[|] base];
    unfold carried, answer, bound, local, node, exists_; simpl.
  - done.
  - destruct (truthy_str _); simpl; [done | apply Hres].
Qed.

(** Errors of [fs.stat] never end a call with the fatal error: as long as
    the module resolution reports no error, nothing is thrown. *)
Theorem stat_errors_never_fatal `{!PathLaws P} (e : thrown) :
  (forall request basedir : string,
     (resolve_answer w request basedir).1 = None) ->
  EvThrow e ∉ events w call.
Proof.
  intros Hres Hin.
  assert (Hc : EvThrow e ∈ calls (events w call))
    by (by apply elem_of_calls).
  destruct (call_outcome includes_not_empty)
    as [(pre & post & a & file & _ & _ & _ & Heq)|[_ Heq]];
    rewrite Heq in Hc.
  - assert (Hcomp : EvThrow e ∈
              completions ((pre ≫= attempt_calls w url ext) ++
                           attempt_calls w url ext a ++
                           [EvDone (FileObject file)])).
    { unfold completions. apply list_elem_of_In, List.filter_In.
      split; [by apply list_elem_of_In | done]. }
    rewrite !completions_app, attempt_calls_no_completion in Hcomp.
    pose proof (attempt_calls_no_completion w url ext [a]) as Hone.
    rewrite bind_cons, completions_app in Hone.
    apply app_eq_nil in Hone as [Hone _]. rewrite Hone in Hcomp.
    apply list_elem_of_singleton in Hcomp. discriminate.
  - assert (Hcomp : EvThrow e ∈
              completions ((attempts includes ≫= attempt_calls w url ext) ++
                [if truthy_obj
                      (final_error w url ext None (attempts includes))
                 then fatal else EvDone NoArgs])).
    { unfold completions. apply list_elem_of_In, List.filter_In.
      split; [by apply list_elem_of_In | done]. }
    rewrite completions_app, attempt_calls_no_completion in Hcomp.
    rewrite final_error_none in Hcomp.
    + apply list_elem_of_singleton in Hcomp. discriminate.
    + apply Forall_forall. intros a _.
      by apply carried_without_resolve_error.
Qed.

(** The completion is the last thing a call does: no request to
    [fs.stat] or to the module resolution follows it. *)
Theorem nothing_after_completion `{!PathLaws P} :
  exists (before : list event) (c : event),
    calls (events w call) = before ++ [c] /\
    specified_completion c /\
    completions before = [].
Proof.
  destruct (call_outcome includes_not_empty)
    as [(pre & post & a & file & _ & _ & _ & Heq)|[_ Heq]].
  - exists ((pre ≫= attempt_calls w url ext) ++ attempt_calls w url ext a),
           (EvDone (FileObject file)).
    split; [by rewrite Heq, <- app_assoc|]. split; [constructor|].
    rewrite completions_app, attempt_calls_no_completion.
    pose proof (attempt_calls_no_completion w url ext [a]) as Hone.
    rewrite bind_cons, completions_app in Hone.
    by apply app_eq_nil in Hone as [-> _].
  - eexists _, _. split; [exact Heq|]. split.
    + destruct (truthy_obj _); constructor.
    + apply attempt_calls_no_completion.
Qed.

End CallRequests.

(** For a specifier that already has the extension in it, the package
    resolver's answer is that of the module resolution for the specifier
    as written; when that fails, the same request is made twice. *)
Theorem node_repeats_request `{P : PathModule} (w : world) {R : Type}
    (base file ext : string) (next : callback R) :
  index_fits_int32 file ->
  occurs_in ext file ->
  let r := resolve_answer w file base in
  answer w file ext (PackageStrategy, base) =
    Some (if truthy_str r.2 then (None, r.2) else r) /\
  (truthy_str r.2 = false ->
   events w (node base file ext next) =
     [EvLog "Resolving file from node_modules: %s" (LogStr file);
      EvResolve file base; EvResolve file base] ++
     events w (next r.1 r.2)).
Proof.
  intros Hlen Hocc r. unfold answer, bound, node. simpl.
  rewrite (extension_present file ext Hlen Hocc). fold r. split.
  - destruct (truthy_str r.2); [done|]. simpl. fold r. by destruct r.
  - intros Hr. by rewrite Hr.
Qed.

(** ** Concrete runs for the further properties *)

Lemma local_match_skips_packages_witness :
  resolve_count
    (events Sample.local_world
       (resolve (P:=Posix.path) "/proj" ".scss" None "foo"
                "/proj/src/main.scss" host_done)) = 0.
Proof.
  apply (local_match_skips_packages (P:=Posix.path) Sample.local_world
           "/proj" ".scss" None "foo" "/proj/src/main.scss"
           "/proj/src" "/proj/src/foo.scss").
  - apply elem_of_cons. by left.
  - reflexivity.
Defined.

Lemma reported_file_not_empty_witness : "/proj/src/foo.scss" <> "".
Proof.
  apply (reported_file_not_empty (P:=Posix.path) Sample.local_world
           "/proj" ".scss" None "foo" "/proj/src/main.scss").
  change (EvDone (FileObject "/proj/src/foo.scss") ∈
          [EvLog "Resolving: %s" (LogStr "foo");
           EvLog "Resolving file locally: %s" (LogStr "foo");
           EvStat "/proj/src/foo.scss";
           EvDone (FileObject "/proj/src/foo.scss")]).
  do 3 (apply elem_of_cons; right). apply elem_of_cons. by left.
Defined.

Lemma no_match_no_error_falls_back_witness :
  calls (events Sample.empty_world
           (resolve (P:=Posix.path) "/proj" ".scss" None "foo"
                    "/proj/src/main.scss" host_done)) =
  [EvStat "/proj/src/foo.scss"; EvStat "/proj/foo.scss";
   EvResolve "foo.scss" "/proj/src"; EvResolve "foo" "/proj/src";
   EvResolve "foo.scss" "/proj"; EvResolve "foo" "/proj";
   EvDone NoArgs].
Proof.
  apply (@no_match_no_error_falls_back Posix.path Sample.empty_world
           "/proj" ".scss" None "foo" "/proj/src/main.scss"
           posix_path_laws).
  - repeat constructor.
  - repeat constructor.
Defined.

Lemma fatal_iff_last_two_carry_witness :
  completions
    (events Sample.package_world
       (resolve (P:=Posix.path) "/proj" ".scss" None "foo"
                "/proj/src/main.scss" host_done)) =
  [EvThrow (ThrownError
     "Could not find file: foo from parent /proj/src/main.scss")].
Proof.
  apply (fatal_iff_last_two_carry (P:=Posix.path) Sample.package_world
           "/proj" ".scss" None "foo" "/proj/src/main.scss"
           [] "/proj/src" "/proj").
  - reflexivity.
  - repeat constructor.
Defined.

Lemma stat_errors_never_fatal_witness :
  EvThrow (ThrownError
    "Could not find file: foo from parent /proj/src/main.scss") ∉
  events Sample.empty_world
    (resolve (P:=Posix.path) "/proj" ".scss" None "foo"
             "/proj/src/main.scss" host_done).
Proof.
  apply (@stat_errors_never_fatal Posix.path Sample.empty_world
           "/proj" ".scss" None "foo" "/proj/src/main.scss"
           posix_path_laws).
  intros request basedir. reflexivity.
Defined.

Lemma nothing_after_completion_witness :
  exists (before : list event) (c : event),
    calls (events Sample.package_world
             (resolve (P:=Posix.path) "/proj" ".scss" None "some-lib"
                      "/proj/src/main.scss" host_done)) = before ++ [c] /\
    specified_completion c /\
    completions before = [].
Proof.
  exact (@nothing_after_completion Posix.path Sample.package_world
           "/proj" ".scss" None "some-lib" "/proj/src/main.scss"
           posix_path_laws).
Defined.

Lemma node_repeats_request_witness :
  answer (P:=Posix.path) Sample.package_world "some-lib.scss" ".scss"
         (PackageStrategy, "/proj") =
  Some (Some (JsError "Cannot find module"), None).
Proof.
  apply (node_repeats_request (P:=Posix.path) Sample.package_world
           (R:=unit) "/proj" "some-lib.scss" ".scss"
           (fun _ _ => Return tt)).
  - by vm_compute.
  - by exists "some-lib", "".
Defined.
